(** * Caesar signer: session custody core and its gRPC facade

  A shallow embedding of [internal/signer/session.go] (the
  [SessionManager]) and of [internal/signer/handler.go] (the [Handler]
  that exposes it), followed by the properties the design document
  states about them.

  Conventions.
  - [*big.Int] values are integers of [Z]; a [nil] pointer is [None]
    where the code stores one ([maxValueLimit] after teardown). The
    arguments of [Activate] and [Sign] are integers: a call that passes
    a [nil] pointer, on which the method panics, is outside the model.
  - [time.Time] is an instant counted in nanoseconds from Go's zero
    [Time]; [time.Duration] is a number of nanoseconds.
  - The mutex is not modelled: every method holds [sm.mu] for its whole
    body, so a method is one atomic transition of the manager.
  - What a method asks of the outside ([time.Now], [memguard.NewEnclave],
    [Enclave.Open]) is read from a [World] handed to that call.
  - A Go run-time panic (a [nil] dereference) is the result [None]. *)

From Stdlib Require Import ZArith List Bool Lia.
From Stdlib Require Import Strings.String Strings.Ascii Strings.Byte.
From Stdlib Require Import Numbers.DecimalString Numbers.DecimalZ.
Import ListNotations.

Open Scope string_scope.
Open Scope Z_scope.

(** ** [math/big]: the two conversions the signer uses *)
Module Big.

(** [Int.String]: the decimal text of the integer, [-] first for
    a negative one. *)
Definition String (x : Z) : string := NilZero.string_of_int (Z.to_int x).

(** [Int.Text] on a possibly [nil] receiver prints ["<nil>"]. *)
Definition StringPtr (x : option Z) : string :=
  match x with
  | Some v => String v
  | None => "<nil>"
  end.

Definition digit (c : ascii) : option Z :=
  let n := Z.of_nat (nat_of_ascii c) in
  if (48 <=? n) && (n <=? 57) then Some (n - 48) else None.

(** The digits of a base-10 numeral, most significant first; any other
    byte makes the scan fail, since [SetString] wants the whole string
    consumed. *)
Fixpoint scanDigits (s : string) (acc : Z) : option Z :=
  match s with
  | EmptyString => Some acc
  | String.String c rest =>
      match digit c with
      | Some d => scanDigits rest (10 * acc + d)
      | None => None
      end
  end.

Definition scanNat (s : string) : option Z :=
  match s with
  | EmptyString => None (* "number has no digits" *)
  | _ => scanDigits s 0
  end.

(** [Int.SetString(s, 10)]: an optional sign, then at least one
    decimal digit, and nothing else. *)
Definition SetString (s : string) : option Z :=
  match s with
  | String.String "-"%char rest => option_map Z.opp (scanNat rest)
  | String.String "+"%char rest => scanNat rest
  | _ => scanNat s
  end.

End Big.

(** ** [session.go] *)
Module Session.

Definition Time := Z.
Definition Duration := Z.

(** The values of Go's [error] that [Sign] can return: the three
    sentinels of the package, or an error that came from outside it
    (from [Enclave.Open]), kept by its message. *)
Inductive error :=
| ErrNoActiveSession
| ErrSessionExpired
| ErrValueLimitExceeded
| ErrForeign (msg : string).

Definition Error (e : error) : string :=
  match e with
  | ErrNoActiveSession => "no active session"
  | ErrSessionExpired => "session expired"
  | ErrValueLimitExceeded => "cumulative value limit exceeded"
  | ErrForeign msg => msg
  end.

(** [*memguard.Enclave]: an opaque sealed buffer. *)
Inductive Enclave := Sealed (ciphertext : list byte).

(** [*memguard.LockedBuffer]: the plaintext revealed by [Open]. *)
Definition LockedBuffer := list byte.

(** What one method call observes of its environment. [memguard] is a
    dependency, not part of the package: [NewEnclave] gives a pointer
    that may be [nil], [Open] gives a buffer or an error of its own. *)
Record World := {
  time_Now : Time;
  memguard_NewEnclave : list byte -> option Enclave;
  Enclave_Open : Enclave -> string + LockedBuffer
}.

Record SessionManager := {
  enclave : option Enclave;
  address : string;
  expiresAt : Time;
  maxValueLimit : option Z;
  valueUsed : Z;
  ttl : Duration
}.

Definition NewSessionManager (ttl : Duration) : SessionManager :=
  {| enclave := None;
     address := "";
     expiresAt := 0;
     maxValueLimit := None;
     valueUsed := 0;
     ttl := ttl |}.

(** [time.Now().After(sm.expiresAt)]: strictly later. *)
Definition isExpired (w : World) (sm : SessionManager) : bool :=
  expiresAt sm <? time_Now w.

Definition destroyLocked (sm : SessionManager) : SessionManager :=
  {| enclave := None;
     address := "";
     expiresAt := expiresAt sm;
     maxValueLimit := None;
     valueUsed := 0;
     ttl := ttl sm |}.

Definition placeholderAddress : string :=
  "0x0000000000000000000000000000000000000000".

(** [Activate] has one exit, [return nil]. *)
Definition Activate (w : World) (keyBytes : list byte) (limit : Z)
    (sm : SessionManager) : SessionManager * option error :=
  ({| enclave := memguard_NewEnclave w keyBytes;
      address := placeholderAddress;
      expiresAt := time_Now w + ttl sm;
      maxValueLimit := Some limit;
      valueUsed := 0;
      ttl := ttl sm |},
   None).

Definition commit (newTotal : Z) (sm : SessionManager) : SessionManager :=
  {| enclave := enclave sm;
     address := address sm;
     expiresAt := expiresAt sm;
     maxValueLimit := maxValueLimit sm;
     valueUsed := newTotal;
     ttl := ttl sm |}.

(** [make([]byte, 65)] *)
Definition placeholderSignature : list byte := repeat x00 65.

(** [Sign]. The comparison [newTotal.Cmp(sm.maxValueLimit) > 0] is
    [limit < newTotal]. The opened buffer is read and destroyed before the
    commit; neither touches a field of the manager. *)
Definition Sign (w : World) (orderValue : Z) (sm : SessionManager)
    : option (SessionManager * (error + list byte)) :=
  match enclave sm with
  | None => Some (sm, inl ErrNoActiveSession)
  | Some e =>
      if isExpired w sm then Some (destroyLocked sm, inl ErrSessionExpired)
      else
        match maxValueLimit sm with
        | None => None (* newTotal.Cmp(nil) *)
        | Some limit =>
            let newTotal := valueUsed sm + orderValue in
            if limit <? newTotal then Some (sm, inl ErrValueLimitExceeded)
            else
              match Enclave_Open w e with
              | inl msg => Some (sm, inl (ErrForeign msg))
              | inr buf => Some (commit newTotal sm, inr placeholderSignature)
              end
        end
  end.

Record StatusReply := {
  active : bool;
  ttlRemaining : Z;
  maxLimit : string;
  used : string;
  signerAddress : string
}.

Definition inactiveReply : StatusReply :=
  {| active := false;
     ttlRemaining := 0;
     maxLimit := "0";
     used := "0";
     signerAddress := "" |}.

Definition nanosPerSecond : Z := 1000000000.

(** [Status] holds the read lock and assigns no field: every exit hands
    the manager back as it found it. The whole seconds left are taken on
    the integer count of nanoseconds (the code goes through [float64]) and
    on the clock reading of the expiry check (the code reads the clock
    again, hence its clamp at zero). *)
Definition Status (w : World) (sm : SessionManager)
    : SessionManager * StatusReply :=
  match enclave sm with
  | None => (sm, inactiveReply)
  | Some _ =>
      if isExpired w sm then (sm, inactiveReply)
      else
        (sm,
         {| active := true;
            ttlRemaining :=
              Z.quot (Z.max 0 (expiresAt sm - time_Now w)) nanosPerSecond;
            maxLimit := Big.StringPtr (maxValueLimit sm);
            used := Big.String (valueUsed sm);
            signerAddress := address sm |})
  end.

Definition Destroy (sm : SessionManager) : SessionManager := destroyLocked sm.

(** *** Runs of the manager *)

Inductive Call :=
| CallActivate (keyBytes : list byte) (limit : Z)
| CallSign (orderValue : Z)
| CallStatus
| CallDestroy.

Definition step (w : World) (c : Call) (sm : SessionManager)
    : option SessionManager :=
  match c with
  | CallActivate keyBytes limit => Some (fst (Activate w keyBytes limit sm))
  | CallSign orderValue => option_map fst (Sign w orderValue sm)
  | CallStatus => Some (fst (Status w sm))
  | CallDestroy => Some (Destroy sm)
  end.

(** The states a manager built by [NewSessionManager] can be in after
    calls that all satisfy [allowed], each made in a world of its own. *)
Inductive Reachable (allowed : Call -> Prop) : SessionManager -> Prop :=
| Reachable_new (d : Duration) : Reachable allowed (NewSessionManager d)
| Reachable_step (sm sm' : SessionManager) (w : World) (c : Call) :
    Reachable allowed sm -> allowed c -> step w c sm = Some sm' ->
    Reachable allowed sm'.

Definition anyCall (c : Call) : Prop := True.

Definition limitNonNegative (c : Call) : Prop :=
  match c with
  | CallActivate _ limit => 0 <= limit
  | _ => True
  end.

Definition orderNonNegative (c : Call) : Prop :=
  match c with
  | CallSign orderValue => 0 <= orderValue
  | _ => True
  end.

(** The "no active session" state of the design: no enclave, no
    address, no limit, zeroed counter. *)
Definition noActiveSession (sm : SessionManager) : Prop :=
  enclave sm = None /\ address sm = "" /\
  maxValueLimit sm = None /\ valueUsed sm = 0.

(** A world for examples: the clock reads [t]; [memguard] seals any
    non-empty buffer (it returns [nil] for an empty one) and opens what
    it sealed. *)
Definition worldAt (t : Time) : World :=
  {| time_Now := t;
     memguard_NewEnclave :=
       fun src => match src with [] => None | _ => Some (Sealed src) end;
     Enclave_Open := fun e => match e with Sealed c => inr c end |}.

(** The same clock and sealing, with an enclave that fails to open. *)
Definition brokenWorldAt (t : Time) : World :=
  {| time_Now := t;
     memguard_NewEnclave := memguard_NewEnclave (worldAt t);
     Enclave_Open := fun _ => inl "memguard: decryption failed" |}.

End Session.

(** ** [handler.go] *)
Module Facade.
Import Session.

(** [google.golang.org/grpc/codes]: the codes the handler answers with. *)
Inductive Code :=
| InvalidArgument
| FailedPrecondition
| ResourceExhausted
| Internal.

(** What [status.Errorf(code, format, args...)] carries to the caller. *)
Record rpcStatus := {
  code : Code;
  message : string
}.

(** The generated request and response messages, by the fields the
    handler reads and writes. *)
Record OrderMsg := { MakerAmount : string }.

Record SignOrderRequest := { Order : option OrderMsg }.

Record SignOrderResponse := {
  Signature : string;
  SignerAddress : string
}.

Record GetSessionStatusResponse := {
  Active : bool;
  TtlSeconds : Z;
  MaxValueLimit : string;
  ValueUsed : string;
  SessionAddress : string
}.

(** The [switch err] of [SignOrder]; [%v] prints [err.Error()]. *)
Definition statusOfError (err : error) : rpcStatus :=
  match err with
  | ErrNoActiveSession =>
      {| code := FailedPrecondition; message := "no active session" |}
  | ErrSessionExpired =>
      {| code := FailedPrecondition; message := "session expired" |}
  | ErrValueLimitExceeded =>
      {| code := ResourceExhausted;
         message := "cumulative value limit exceeded" |}
  | _ =>
      {| code := Internal; message := "signing failed: " ++ Error err |}
  end.

(** [SignOrder] calls [Sign] in the world [w] and, after a signature,
    [Status] in the (later) world [w']: the lock is released in
    between. *)
Definition SignOrder (w w' : World) (req : SignOrderRequest)
    (sm : SessionManager)
    : option (SessionManager * (rpcStatus + SignOrderResponse)) :=
  match Order req with
  | None =>
      Some (sm, inl {| code := InvalidArgument;
                       message := "order is required" |})
  | Some order =>
      match Big.SetString (MakerAmount order) with
      | None =>
          Some (sm, inl {| code := InvalidArgument;
                           message := "invalid maker_amount: "
                                        ++ MakerAmount order |})
      | Some orderValue =>
          match Sign w orderValue sm with
          | None => None
          | Some (sm1, inl err) => Some (sm1, inl (statusOfError err))
          | Some (sm1, inr sig) =>
              let (sm2, reply) := Status w' sm1 in
              Some (sm2, inr {| Signature := string_of_list_byte sig;
                                SignerAddress := signerAddress reply |})
          end
      end
  end.

Definition GetSessionStatus (w : World) (sm : SessionManager)
    : SessionManager * GetSessionStatusResponse :=
  let (sm1, reply) := Status w sm in
  (sm1, {| Active := active reply;
           TtlSeconds := ttlRemaining reply;
           MaxValueLimit := maxLimit reply;
           ValueUsed := used reply;
           SessionAddress := signerAddress reply |}).

(** The Core's error taxonomy of the design document. *)
Inductive CoreError :=
| NoActiveSession
| SessionExpired
| ValueLimitExceeded
| SigningFailure.

Definition kindOf (err : error) : CoreError :=
  match err with
  | ErrNoActiveSession => NoActiveSession
  | ErrSessionExpired => SessionExpired
  | ErrValueLimitExceeded => ValueLimitExceeded
  | ErrForeign _ => SigningFailure
  end.

End Facade.
Import Session Facade.

(** ** Predicates and scenarios the properties are stated with *)

(** The five exits of [Sign], as a relation between the call and what it
    returns: the manager left behind and the error or the signature. *)
Inductive SignOutcome (w : World) (orderValue : Z) (sm : SessionManager)
  : SessionManager -> error + list byte -> Prop :=
| Outcome_inactive :
    enclave sm = None ->
    SignOutcome w orderValue sm sm (inl ErrNoActiveSession)
| Outcome_expired (e : Enclave) :
    enclave sm = Some e -> isExpired w sm = true ->
    SignOutcome w orderValue sm (destroyLocked sm) (inl ErrSessionExpired)
| Outcome_over_limit (e : Enclave) (limit : Z) :
    enclave sm = Some e -> isExpired w sm = false ->
    maxValueLimit sm = Some limit -> limit < valueUsed sm + orderValue ->
    SignOutcome w orderValue sm sm (inl ErrValueLimitExceeded)
| Outcome_open_failed (e : Enclave) (limit : Z) (msg : string) :
    enclave sm = Some e -> isExpired w sm = false ->
    maxValueLimit sm = Some limit -> valueUsed sm + orderValue <= limit ->
    Enclave_Open w e = inl msg ->
    SignOutcome w orderValue sm sm (inl (ErrForeign msg))
| Outcome_signed (e : Enclave) (limit : Z) (buf : LockedBuffer) :
    enclave sm = Some e -> isExpired w sm = false ->
    maxValueLimit sm = Some limit -> valueUsed sm + orderValue <= limit ->
    Enclave_Open w e = inr buf ->
    SignOutcome w orderValue sm (commit (valueUsed sm + orderValue) sm)
                (inr placeholderSignature).

(** An enclave is only ever stored together with a limit, so the
    comparison in [Sign] never meets a [nil] limit. *)
Definition hasLimit (sm : SessionManager) : Prop :=
  enclave sm <> None -> maxValueLimit sm <> None.

Definition withinLimit (sm : SessionManager) : Prop :=
  enclave sm <> None ->
  exists limit, maxValueLimit sm = Some limit /\ valueUsed sm <= limit.

(** Scenarios.

    The states of the design document's examples: a manager with a TTL of
    sixty seconds, activated at instant [0] with a two-byte key. *)

Definition seconds (n : Z) : Duration := n * nanosPerSecond.

Definition demoKey : list byte := [x01; x02].

Definition fresh : SessionManager := NewSessionManager (seconds 60).

Definition activated (limit : Z) : SessionManager :=
  fst (Activate (worldAt 0) demoKey limit fresh).

Definition orderOf (amount : string) : SignOrderRequest :=
  {| Order := Some {| MakerAmount := amount |} |}.

(** Sequences of calls, each in a world of its own. [run] threads the
    manager through them and stops at a panic. *)
Fixpoint run (calls : list (World * Call)) (sm : SessionManager)
    : option SessionManager :=
  match calls with
  | [] => Some sm
  | (w, c) :: rest =>
      match step w c sm with
      | Some sm1 => run rest sm1
      | None => None
      end
  end.

Definition isActivate (c : Call) : bool :=
  match c with
  | CallActivate _ _ => true
  | _ => false
  end.

(** The order value a [Sign] accounts for: all of it with a signature,
    nothing with an error. *)
Definition signedValue (orderValue : Z) (r : error + list byte) : Z :=
  match r with
  | inr _ => orderValue
  | inl _ => 0
  end.

(** A series of [Sign] calls: the manager left at the end and the sum of
    the order values of the calls that returned a signature. *)
Fixpoint signAll (calls : list (World * Z)) (sm : SessionManager)
    : option (SessionManager * Z) :=
  match calls with
  | [] => Some (sm, 0)
  | (w, v) :: rest =>
      match Sign w v sm with
      | None => None
      | Some (sm1, r) =>
          match signAll rest sm1 with
          | None => None
          | Some (sm2, total) => Some (sm2, signedValue v r + total)
          end
      end
  end.

(** The state of a manager built with the TTL [d] whose session, if it
    has one, dates from an [Activate] among the calls [hist] made so far. *)
Definition datedBy (d : Duration) (hist : list (World * Call))
    (sm : SessionManager) : Prop :=
  ttl sm = d /\
  (enclave sm <> None ->
   exists w k l, In (w, CallActivate k l) hist /\
                 expiresAt sm = time_Now w + d).

(** The bytes of an amount after its first one. *)
Definition afterFirst (s : string) : list ascii :=
  match s with
  | EmptyString => []
  | String.String _ rest => list_ascii_of_string rest
  end.

(** The amounts [SetString(s, 10)] refuses: no digit at all, a byte
    after the first that is not a decimal digit, or a first byte that is
    neither a digit nor a sign. *)
Definition malformedAmount (s : string) : Prop :=
  s = "" \/ s = "+" \/ s = "-" \/
  (exists c, In c (afterFirst s) /\ Big.digit c = None) \/
  (exists c rest, s = String.String c rest /\ Big.digit c = None /\
                  c <> "-"%char /\ c <> "+"%char).

(** ** How [Sign] returns

    One lemma per exit of [Sign], in the order of the code, and the
    converse: a returning [Sign] left by one of them. *)
Section SignOutcomes.

Variables (w : World) (orderValue : Z) (sm : SessionManager).

Lemma Sign_inactive :
  enclave sm = None ->
  Sign w orderValue sm = Some (sm, inl ErrNoActiveSession).
Proof. intros He. unfold Sign. now rewrite He. Qed.

Lemma Sign_expired (e : Enclave) :
  enclave sm = Some e -> isExpired w sm = true ->
  Sign w orderValue sm = Some (destroyLocked sm, inl ErrSessionExpired).
Proof. intros He Hx. unfold Sign. now rewrite He, Hx. Qed.

Lemma Sign_over_limit (e : Enclave) (limit : Z) :
  enclave sm = Some e -> isExpired w sm = false ->
  maxValueLimit sm = Some limit -> limit < valueUsed sm + orderValue ->
  Sign w orderValue sm = Some (sm, inl ErrValueLimitExceeded).
Proof.
  intros He Hx Hl Hlt. unfold Sign. rewrite He, Hx, Hl.
  apply Z.ltb_lt in Hlt. now rewrite Hlt.
Qed.

Lemma Sign_open_failed (e : Enclave) (limit : Z) (msg : string) :
  enclave sm = Some e -> isExpired w sm = false ->
  maxValueLimit sm = Some limit -> valueUsed sm + orderValue <= limit ->
  Enclave_Open w e = inl msg ->
  Sign w orderValue sm = Some (sm, inl (ErrForeign msg)).
Proof.
  intros He Hx Hl Hle Ho. unfold Sign. rewrite He, Hx, Hl.
  apply Z.ltb_ge in Hle. now rewrite Hle, Ho.
Qed.

Lemma Sign_signed (e : Enclave) (limit : Z) (buf : LockedBuffer) :
  enclave sm = Some e -> isExpired w sm = false ->
  maxValueLimit sm = Some limit -> valueUsed sm + orderValue <= limit ->
  Enclave_Open w e = inr buf ->
  Sign w orderValue sm =
    Some (commit (valueUsed sm + orderValue) sm, inr placeholderSignature).
Proof.
  intros He Hx Hl Hle Ho. unfold Sign. rewrite He, Hx, Hl.
  apply Z.ltb_ge in Hle. now rewrite Hle, Ho.
Qed.

Lemma Sign_inv (sm' : SessionManager) (r : error + list byte) :
  Sign w orderValue sm = Some (sm', r) -> SignOutcome w orderValue sm sm' r.
Proof.
  unfold Sign.
  destruct (enclave sm) as [e|] eqn:He.
  - destruct (isExpired w sm) eqn:Hx.
    + intros [= <- <-]. now apply Outcome_expired with e.
    + destruct (maxValueLimit sm) as [limit|] eqn:Hl; [|discriminate].
      cbv zeta.
      destruct (limit <? valueUsed sm + orderValue) eqn:Hc.
      * intros [= <- <-]. apply Z.ltb_lt in Hc.
        now apply Outcome_over_limit with e limit.
      * apply Z.ltb_ge in Hc.
        destruct (Enclave_Open w e) as [msg|buf] eqn:Ho; intros [= <- <-].
        -- now apply Outcome_open_failed with e limit.
        -- now apply Outcome_signed with e limit buf.
  - intros [= <- <-]. now apply Outcome_inactive.
Qed.

End SignOutcomes.

(** A failed [Sign] on a live session is a no-op. *)
Lemma Sign_error_keeps_state (w : World) (v : Z) (sm sm' : SessionManager)
    (err : error) :
  Sign w v sm = Some (sm', inl err) -> isExpired w sm = false -> sm' = sm.
Proof.
  intros Hs Hx. apply Sign_inv in Hs. inversion Hs; subst; congruence.
Qed.

Lemma isExpired_after (w : World) (sm : SessionManager) :
  isExpired w sm = true <-> expiresAt sm < time_Now w.
Proof. unfold isExpired. apply Z.ltb_lt. Qed.

Lemma isExpired_not_after (w : World) (sm : SessionManager) :
  isExpired w sm = false <-> time_Now w <= expiresAt sm.
Proof. unfold isExpired. apply Z.ltb_ge. Qed.

Lemma Status_keeps_state (w : World) (sm : SessionManager) :
  fst (Status w sm) = sm.
Proof.
  unfold Status. destruct (enclave sm); [destruct (isExpired w sm)|]; reflexivity.
Qed.

Lemma Status_inactive (w : World) (sm : SessionManager) :
  enclave sm = None \/ isExpired w sm = true ->
  snd (Status w sm) = inactiveReply.
Proof.
  unfold Status. intros [He|Hx].
  - now rewrite He.
  - rewrite Hx. now destruct (enclave sm).
Qed.

Lemma Status_active (w : World) (sm : SessionManager) (e : Enclave) :
  enclave sm = Some e -> isExpired w sm = false ->
  snd (Status w sm) =
    {| active := true;
       ttlRemaining := Z.quot (Z.max 0 (expiresAt sm - time_Now w)) nanosPerSecond;
       maxLimit := Big.StringPtr (maxValueLimit sm);
       used := Big.String (valueUsed sm);
       signerAddress := address sm |}.
Proof. intros He Hx. unfold Status. now rewrite He, Hx. Qed.

(** ** Invariants of the reachable states *)

Lemma step_Sign (w : World) (v : Z) (sm sm' : SessionManager) :
  step w (CallSign v) sm = Some sm' ->
  exists r, Sign w v sm = Some (sm', r).
Proof.
  cbn. destruct (Sign w v sm) as [[sm1 r]|]; [|discriminate].
  intros [= <-]. now exists r.
Qed.

Lemma Reachable_weaken (allowed : Call -> Prop) (sm : SessionManager) :
  Reachable allowed sm -> Reachable anyCall sm.
Proof.
  induction 1 as [d|sm sm' w c _ IH _ Hs].
  - apply Reachable_new.
  - now apply Reachable_step with sm w c.
Qed.

Lemma Reachable_hasLimit (allowed : Call -> Prop) (sm : SessionManager) :
  Reachable allowed sm -> hasLimit sm.
Proof.
  induction 1 as [d|sm sm' w c _ IH _ Hs]; unfold hasLimit in *.
  - cbn. congruence.
  - destruct c as [keyBytes limit|v| |].
    + injection Hs as <-. cbn. congruence.
    + apply step_Sign in Hs as [r Hs]. apply Sign_inv in Hs.
      inversion Hs; subst; cbn; congruence.
    + cbn in Hs. rewrite Status_keeps_state in Hs. now injection Hs as <-.
    + injection Hs as <-. cbn. congruence.
Qed.

(** On a reachable state [Sign] always returns. *)
Lemma Sign_returns (allowed : Call -> Prop) (w : World) (v : Z)
    (sm : SessionManager) :
  Reachable allowed sm -> exists sm' r, Sign w v sm = Some (sm', r).
Proof.
  intros Hr. apply Reachable_hasLimit in Hr. unfold hasLimit in Hr.
  unfold Sign. destruct (enclave sm) as [e|]; [|eauto].
  destruct (isExpired w sm); [eauto|].
  destruct (maxValueLimit sm) as [limit|]; [|exfalso; now apply Hr].
  cbv zeta. destruct (limit <? valueUsed sm + v); [eauto|].
  destruct (Enclave_Open w e); eauto.
Qed.

Lemma Reachable_withinLimit (sm : SessionManager) :
  Reachable limitNonNegative sm -> withinLimit sm.
Proof.
  induction 1 as [d|sm sm' w c _ IH Hc Hs]; unfold withinLimit in *.
  - cbn. congruence.
  - destruct c as [keyBytes limit|v| |].
    + injection Hs as <-. cbn in *. intros _. now exists limit.
    + apply step_Sign in Hs as [r Hs]. apply Sign_inv in Hs.
      inversion Hs; subst; cbn; try assumption; try congruence.
      intros _. now exists limit.
    + cbn in Hs. rewrite Status_keeps_state in Hs. now injection Hs as <-.
    + injection Hs as <-. cbn. congruence.
Qed.

Lemma Reachable_valueUsed_nonneg (sm : SessionManager) :
  Reachable orderNonNegative sm -> 0 <= valueUsed sm.
Proof.
  induction 1 as [d|sm sm' w c _ IH Hc Hs].
  - cbn. lia.
  - destruct c as [keyBytes limit|v| |].
    + injection Hs as <-. cbn. lia.
    + apply step_Sign in Hs as [r Hs]. apply Sign_inv in Hs.
      cbn in Hc. inversion Hs; subst; cbn; lia.
    + cbn in Hs. rewrite Status_keeps_state in Hs. now injection Hs as <-.
    + injection Hs as <-. cbn. lia.
Qed.

Lemma activated_reachable (allowed : Call -> Prop) (limit : Z) :
  allowed (CallActivate demoKey limit) ->
  Reachable allowed (activated limit).
Proof.
  intros Ha.
  apply Reachable_step with fresh (worldAt 0) (CallActivate demoKey limit).
  - apply Reachable_new.
  - exact Ha.
  - reflexivity.
Qed.

(** ** The value limit (C1, C2, C3, C4) *)

(** C1, as stated, fails: [Activate] stores a negative limit as it is, and
    the session it installs is active, not expired, and has
    [valueUsed = 0] above [maxValueLimit = -1]. *)
Lemma negative_limit_session_exceeds_limit :
  Reachable anyCall (activated (-1)) /\
  enclave (activated (-1)) <> None /\
  isExpired (worldAt 0) (activated (-1)) = false /\
  maxValueLimit (activated (-1)) = Some (-1) /\
  valueUsed (activated (-1)) = 0 /\
  ~ (exists limit, maxValueLimit (activated (-1)) = Some limit /\
                   valueUsed (activated (-1)) <= limit).
Proof.
  repeat split; try reflexivity.
  - now apply activated_reachable.
  - discriminate.
  - intros (limit & Hl & Hle). cbn in Hl, Hle. injection Hl as <-. lia.
Qed.

(** C1 (amended): in every state reached from [NewSessionManager] by
    [Activate], [Sign], [Status] and [Destroy] calls whose [Activate]
    limits are non-negative, an active session (expired or not) has
    [valueUsed <= maxValueLimit]; and, whatever the limit and the state,
    a [Sign] that returns a signature leaves [valueUsed <= maxValueLimit]. *)
Theorem value_used_within_limit :
  (forall sm, Reachable limitNonNegative sm -> enclave sm <> None ->
     exists limit, maxValueLimit sm = Some limit /\ valueUsed sm <= limit) /\
  (forall w v sm sm' sig, Sign w v sm = Some (sm', inr sig) ->
     exists limit, maxValueLimit sm' = Some limit /\ valueUsed sm' <= limit).
Proof.
  split.
  - intros sm Hr. exact (Reachable_withinLimit sm Hr).
  - intros w v sm sm' sig Hs. apply Sign_inv in Hs.
    inversion Hs; subst. now exists limit.
Qed.

Lemma value_used_within_limit_witness :
  Reachable limitNonNegative (activated 100) /\
  enclave (activated 100) <> None /\
  exists limit, maxValueLimit (activated 100) = Some limit /\
                valueUsed (activated 100) <= limit.
Proof.
  assert (Hr : Reachable limitNonNegative (activated 100)).
  { apply activated_reachable. cbn. lia. }
  assert (He : enclave (activated 100) <> None) by discriminate.
  split; [exact Hr|]. split; [exact He|].
  exact (proj1 value_used_within_limit (activated 100) Hr He).
Defined.

(** C2: on an active, non-expired session [Sign] fails with
    [ErrValueLimitExceeded], the manager untouched, exactly when
    [valueUsed + orderValue > maxValueLimit]; up to the limit, and so at
    the limit exactly, a [Sign] whose enclave opens returns the signature
    and commits the new total; one unit over the limit fails. *)
Theorem Sign_limit_boundary (w : World) (sm : SessionManager) (e : Enclave)
    (limit v : Z) :
  enclave sm = Some e -> isExpired w sm = false ->
  maxValueLimit sm = Some limit ->
  (limit < valueUsed sm + v <->
     Sign w v sm = Some (sm, inl ErrValueLimitExceeded)) /\
  (forall sm', Sign w v sm = Some (sm', inl ErrValueLimitExceeded) ->
     sm' = sm /\ limit < valueUsed sm + v) /\
  (valueUsed sm + v <= limit ->
     forall buf, Enclave_Open w e = inr buf ->
     Sign w v sm = Some (commit (valueUsed sm + v) sm, inr placeholderSignature)) /\
  (valueUsed sm + v = limit ->
     forall buf, Enclave_Open w e = inr buf ->
     Sign w v sm = Some (commit limit sm, inr placeholderSignature)) /\
  (valueUsed sm + v = limit + 1 ->
     Sign w v sm = Some (sm, inl ErrValueLimitExceeded)).
Proof.
  intros He Hx Hl.
  assert (Hover : forall sm', Sign w v sm = Some (sm', inl ErrValueLimitExceeded) ->
                  sm' = sm /\ limit < valueUsed sm + v).
  { intros sm' Hs. apply Sign_inv in Hs. inversion Hs; subst.
    split; [reflexivity|]. congruence. }
  split; [split|]; [| |split; [exact Hover|split; [|split]]].
  - intros Hlt. now apply Sign_over_limit with e limit.
  - intros Hs. now apply Hover in Hs.
  - intros Hle buf Ho. now apply Sign_signed with e limit buf.
  - intros Heq buf Ho. rewrite <- Heq.
    apply Sign_signed with e limit buf; trivial. lia.
  - intros Heq. apply Sign_over_limit with e limit; trivial. lia.
Qed.

Lemma Sign_limit_boundary_witness :
  Sign (worldAt (seconds 1)) 100 (activated 100) =
    Some (commit 100 (activated 100), inr placeholderSignature) /\
  Sign (worldAt (seconds 2)) 1 (commit 100 (activated 100)) =
    Some (commit 100 (activated 100), inl ErrValueLimitExceeded).
Proof.
  split.
  - destruct (Sign_limit_boundary (worldAt (seconds 1)) (activated 100)
                (Sealed demoKey) 100 100 eq_refl eq_refl eq_refl)
      as (_ & _ & _ & Hat & _).
    exact (Hat eq_refl demoKey eq_refl).
  - destruct (Sign_limit_boundary (worldAt (seconds 2))
                (commit 100 (activated 100))
                (Sealed demoKey) 100 1 eq_refl eq_refl eq_refl)
      as (_ & _ & _ & _ & Hover).
    exact (Hover eq_refl).
Defined.

(** C3: when the enclave of the session fails to open, [Sign] returns an
    error; if the session has not expired the manager, and so
    [valueUsed], is as before (within the limit the error is the one
    [Open] gave). The total is committed only together with a signature,
    after a successful [Open]; any error but [ErrSessionExpired] leaves
    the manager unchanged. *)
Theorem failed_signing_keeps_budget :
  (forall w v sm e limit msg,
     enclave sm = Some e -> maxValueLimit sm = Some limit ->
     Enclave_Open w e = inl msg ->
     (exists sm' err, Sign w v sm = Some (sm', inl err)) /\
     (isExpired w sm = false ->
        exists err, Sign w v sm = Some (sm, inl err)) /\
     (isExpired w sm = false -> valueUsed sm + v <= limit ->
        Sign w v sm = Some (sm, inl (ErrForeign msg)))) /\
  (forall w v sm sm' sig,
     Sign w v sm = Some (sm', inr sig) ->
     exists e buf, enclave sm = Some e /\ Enclave_Open w e = inr buf /\
                   sm' = commit (valueUsed sm + v) sm) /\
  (forall w v sm sm' err,
     Sign w v sm = Some (sm', inl err) -> err <> ErrSessionExpired ->
     sm' = sm).
Proof.
  split; [|split].
  - intros w v sm e limit msg He Hl Ho.
    assert (Hlive : isExpired w sm = false ->
                    exists err, Sign w v sm = Some (sm, inl err)).
    { intros Hx. destruct (Z.lt_ge_cases limit (valueUsed sm + v)) as [Hlt|Hle].
      - exists ErrValueLimitExceeded. now apply Sign_over_limit with e limit.
      - exists (ErrForeign msg). now apply Sign_open_failed with e limit. }
    split; [|split].
    + destruct (isExpired w sm) eqn:Hx.
      * exists (destroyLocked sm), ErrSessionExpired.
        now apply Sign_expired with e.
      * destruct (Hlive eq_refl) as [err Hs]. now exists sm, err.
    + exact Hlive.
    + intros Hx Hle. now apply Sign_open_failed with e limit.
  - intros w v sm sm' sig Hs. apply Sign_inv in Hs. inversion Hs; subst.
    now exists e, buf.
  - intros w v sm sm' err Hs Hne. apply Sign_inv in Hs.
    inversion Hs; subst; congruence.
Qed.

Lemma failed_signing_keeps_budget_witness :
  Sign (brokenWorldAt (seconds 1)) 40 (activated 100) =
    Some (activated 100, inl (ErrForeign "memguard: decryption failed")).
Proof.
  destruct (proj1 failed_signing_keeps_budget (brokenWorldAt (seconds 1)) 40
              (activated 100) (Sealed demoKey) 100
              "memguard: decryption failed" eq_refl eq_refl eq_refl)
    as (_ & _ & Hkeep).
  apply Hkeep.
  - reflexivity.
  - cbn. lia.
Defined.

(** C4, as stated, fails twice. The handler parses ["-5"] as an order
    value and [Sign] commits it: [valueUsed] goes from [0] to [-5]. And a
    [Sign] that finds the session expired tears it down, which zeroes a
    counter that stood at [60]. *)
Lemma value_used_can_decrease :
  (exists resp,
     SignOrder (worldAt (seconds 1)) (worldAt (seconds 1)) (orderOf "-5")
               (activated 100)
       = Some (commit (-5) (activated 100), inr resp)) /\
  valueUsed (commit (-5) (activated 100)) < valueUsed (activated 100) /\
  valueUsed (commit (-5) (activated 100)) < 0 /\
  Sign (worldAt (seconds 61)) 1 (commit 60 (activated 100))
    = Some (destroyLocked (commit 60 (activated 100)), inl ErrSessionExpired) /\
  valueUsed (destroyLocked (commit 60 (activated 100)))
    < valueUsed (commit 60 (activated 100)).
Proof.
  split; [|split; [|split; [|split]]].
  - eexists. reflexivity.
  - cbn. lia.
  - cbn. lia.
  - reflexivity.
  - cbn. lia.
Qed.

(** C4 (amended): while every order value is non-negative, [valueUsed]
    is non-negative in every reachable state, and a [Sign] of a
    non-negative value returns with [valueUsed] not below what it was,
    unless it returns [ErrSessionExpired], when the teardown has reset
    [valueUsed] to zero. *)
Theorem value_used_monotone (w : World) (v : Z) (sm : SessionManager) :
  Reachable orderNonNegative sm -> 0 <= v ->
  exists sm' r,
    Sign w v sm = Some (sm', r) /\
    0 <= valueUsed sm /\ 0 <= valueUsed sm' /\
    (r <> inl ErrSessionExpired -> valueUsed sm <= valueUsed sm') /\
    (r = inl ErrSessionExpired -> valueUsed sm' = 0).
Proof.
  intros Hr Hv.
  destruct (Sign_returns orderNonNegative w v sm Hr) as (sm' & r & Hs).
  exists sm', r.
  assert (H0 : 0 <= valueUsed sm) by now apply Reachable_valueUsed_nonneg.
  assert (H1 : 0 <= valueUsed sm').
  { apply Reachable_valueUsed_nonneg.
    apply Reachable_step with sm w (CallSign v); trivial.
    cbn. now rewrite Hs. }
  split; [exact Hs|]. split; [exact H0|]. split; [exact H1|].
  apply Sign_inv in Hs.
  split; intros Hres; inversion Hs; subst; cbn; try lia; congruence.
Qed.

Lemma value_used_monotone_witness :
  exists sm' r,
    Sign (worldAt (seconds 1)) 600000 (activated 1000000) = Some (sm', r) /\
    0 <= valueUsed (activated 1000000) /\ 0 <= valueUsed sm' /\
    (r <> inl ErrSessionExpired ->
       valueUsed (activated 1000000) <= valueUsed sm') /\
    (r = inl ErrSessionExpired -> valueUsed sm' = 0).
Proof.
  apply (value_used_monotone (worldAt (seconds 1)) 600000 (activated 1000000)).
  - apply activated_reachable. exact I.
  - lia.
Defined.

(** ** Expiry (C5, C6) *)

(** C5, as stated, fails: sixty-one seconds after activation [Status]
    reports the inactive shape, but the manager it leaves behind is the
    one it found, enclave, address and limit included; it is not the
    torn-down state. *)
Lemma Status_leaves_expired_session :
  isExpired (worldAt (seconds 61)) (activated 100) = true /\
  Status (worldAt (seconds 61)) (activated 100)
    = (activated 100, inactiveReply) /\
  enclave (activated 100) = Some (Sealed demoKey) /\
  activated 100 <> destroyLocked (activated 100) /\
  ~ noActiveSession (activated 100).
Proof.
  split; [reflexivity|]. split; [reflexivity|]. split; [reflexivity|].
  split.
  - discriminate.
  - intros (He & _). discriminate He.
Qed.

(** C5 (amended): once the TTL of a session has elapsed, [Status] reports
    the inactive shape ([active = false], zero values, empty address) and
    leaves the manager as it is, protected key included; the teardown is
    done by the next [Sign], which returns [ErrSessionExpired] and leaves
    the no-active-session state. *)
Theorem Status_after_expiry (w : World) (sm : SessionManager) (e : Enclave) :
  enclave sm = Some e -> isExpired w sm = true ->
  Status w sm = (sm, inactiveReply) /\
  (forall v, Sign w v sm = Some (destroyLocked sm, inl ErrSessionExpired)) /\
  noActiveSession (destroyLocked sm).
Proof.
  intros He Hx. split; [|split].
  - rewrite (surjective_pairing (Status w sm)), Status_keeps_state.
    rewrite Status_inactive; [reflexivity|now right].
  - intros v. now apply Sign_expired with e.
  - repeat split.
Qed.

Lemma Status_after_expiry_witness :
  Status (worldAt (seconds 61)) (activated 100)
    = (activated 100, inactiveReply) /\
  (forall v, Sign (worldAt (seconds 61)) v (activated 100)
             = Some (destroyLocked (activated 100), inl ErrSessionExpired)) /\
  noActiveSession (destroyLocked (activated 100)).
Proof.
  exact (Status_after_expiry (worldAt (seconds 61)) (activated 100)
           (Sealed demoKey) eq_refl eq_refl).
Defined.

(** C6, as stated, fails at the boundary: at the instant
    [now = expiresAt] the session is not expired, [Sign] returns a
    signature and [Status] reports it active. *)
Lemma session_alive_at_expiry_instant :
  time_Now (worldAt (seconds 60)) = expiresAt (activated 100) /\
  isExpired (worldAt (seconds 60)) (activated 100) = false /\
  Sign (worldAt (seconds 60)) 1 (activated 100)
    = Some (commit 1 (activated 100), inr placeholderSignature) /\
  active (snd (Status (worldAt (seconds 60)) (activated 100))) = true.
Proof. repeat split. Qed.

(** C6 (amended): a session is treated as expired exactly when
    [now > expiresAt]. Past that instant [Sign] returns
    [ErrSessionExpired] and destroys the session, and [Status] reports
    [active = false] without touching it; up to and at [now = expiresAt]
    [Sign] never returns [ErrSessionExpired] and [Status] reports
    [active = true]. *)
Theorem expired_strictly_after (w : World) (sm : SessionManager) (e : Enclave) :
  enclave sm = Some e ->
  (isExpired w sm = true <-> expiresAt sm < time_Now w) /\
  (expiresAt sm < time_Now w ->
     (forall v, Sign w v sm = Some (destroyLocked sm, inl ErrSessionExpired)) /\
     Status w sm = (sm, inactiveReply)) /\
  (time_Now w <= expiresAt sm ->
     (forall v sm', Sign w v sm <> Some (sm', inl ErrSessionExpired)) /\
     active (snd (Status w sm)) = true /\
     fst (Status w sm) = sm).
Proof.
  intros He. split; [apply isExpired_after|]. split.
  - intros Hlt. apply isExpired_after in Hlt.
    destruct (Status_after_expiry w sm e He Hlt) as (Hst & Hsign & _).
    now split.
  - intros Hle. apply isExpired_not_after in Hle. split; [|split].
    + intros v sm' Hs. apply Sign_inv in Hs. inversion Hs; subst. congruence.
    + now rewrite (Status_active w sm e He Hle).
    + apply Status_keeps_state.
Qed.

Lemma expired_strictly_after_witness :
  Sign (worldAt (seconds 61)) 1 (activated 100)
    = Some (destroyLocked (activated 100), inl ErrSessionExpired) /\
  active (snd (Status (worldAt (seconds 60)) (activated 100))) = true.
Proof.
  split.
  - destruct (expired_strictly_after (worldAt (seconds 61)) (activated 100)
                (Sealed demoKey) eq_refl) as (_ & Hpast & _).
    apply Hpast. cbn. lia.
  - destruct (expired_strictly_after (worldAt (seconds 60)) (activated 100)
                (Sealed demoKey) eq_refl) as (_ & _ & Hlive).
    apply Hlive. cbn. lia.
Defined.

(** ** The facade's error statuses (C7) *)

(** C7, as stated, fails: a [SignOrder] on a manager with no session and
    a [SignOrder] on an expired session both answer with the code
    [FailedPrecondition]; only the message tells them apart. *)
Lemma no_session_and_expired_share_code :
  SignOrder (worldAt (seconds 1)) (worldAt (seconds 1)) (orderOf "1") fresh
    = Some (fresh, inl {| code := FailedPrecondition;
                          message := "no active session" |}) /\
  SignOrder (worldAt (seconds 61)) (worldAt (seconds 61)) (orderOf "1")
            (activated 100)
    = Some (destroyLocked (activated 100),
            inl {| code := FailedPrecondition;
                   message := "session expired" |}) /\
  kindOf ErrNoActiveSession <> kindOf ErrSessionExpired /\
  code (statusOfError ErrNoActiveSession) = code (statusOfError ErrSessionExpired).
Proof.
  split; [reflexivity|]. split; [reflexivity|]. split; [discriminate|reflexivity].
Qed.

(** C7 (amended): when [Sign] fails, [SignOrder] answers with the status
    [statusOfError] gives the error. [NoActiveSession] and
    [SessionExpired] both map to [FailedPrecondition],
    [ValueLimitExceeded] to [ResourceExhausted] and a signing failure to
    [Internal]; two errors of different kinds get different statuses
    (code and message together), and the same code only when they are
    [NoActiveSession] and [SessionExpired]. *)
Theorem facade_error_statuses :
  (forall w w' req order v sm sm' err,
     Order req = Some order ->
     Big.SetString (MakerAmount order) = Some v ->
     Sign w v sm = Some (sm', inl err) ->
     SignOrder w w' req sm = Some (sm', inl (statusOfError err))) /\
  (forall err,
     code (statusOfError err) =
       match kindOf err with
       | NoActiveSession | SessionExpired => FailedPrecondition
       | ValueLimitExceeded => ResourceExhausted
       | SigningFailure => Internal
       end) /\
  (forall e1 e2, kindOf e1 <> kindOf e2 ->
     statusOfError e1 <> statusOfError e2) /\
  (forall e1 e2, kindOf e1 <> kindOf e2 ->
     (code (statusOfError e1) = code (statusOfError e2) <->
        (kindOf e1 = NoActiveSession /\ kindOf e2 = SessionExpired) \/
        (kindOf e1 = SessionExpired /\ kindOf e2 = NoActiveSession))).
Proof.
  split; [|split; [|split]].
  - intros w w' req order v sm sm' err Ho Hp Hs.
    unfold SignOrder. now rewrite Ho, Hp, Hs.
  - now intros [].
  - intros [] [] Hk; cbn in *; congruence.
  - intros [] [] Hk; cbn in *; split;
      solve [ congruence | intros [[? ?]|[? ?]]; congruence | tauto ].
Qed.

Lemma facade_error_statuses_witness :
  SignOrder (worldAt (seconds 1)) (worldAt (seconds 1)) (orderOf "500000")
            (commit 600000 (activated 1000000))
    = Some (commit 600000 (activated 1000000),
            inl (statusOfError ErrValueLimitExceeded)) /\
  statusOfError ErrValueLimitExceeded <> statusOfError ErrSessionExpired.
Proof.
  destruct facade_error_statuses as (Hsign & _ & Hdiff & _).
  split.
  - apply (Hsign (worldAt (seconds 1)) (worldAt (seconds 1)) (orderOf "500000")
             {| MakerAmount := "500000" |} 500000); reflexivity.
  - apply Hdiff. discriminate.
Defined.

(** ** Activation and teardown (C8, C9, C10) *)

(** C8, as stated, fails: a [Status] made at the very instant of
    [Activate] reports the inactive shape when the manager was built
    with a negative TTL (the session is born expired), and when the key
    is empty, for which [memguard] returns no enclave. *)
Lemma Status_right_after_Activate_inactive :
  enclave (fst (Activate (worldAt (seconds 5)) demoKey 100
                  (NewSessionManager (-1)))) = Some (Sealed demoKey) /\
  snd (Activate (worldAt (seconds 5)) demoKey 100 (NewSessionManager (-1)))
    = None /\
  snd (Status (worldAt (seconds 5))
         (fst (Activate (worldAt (seconds 5)) demoKey 100
                 (NewSessionManager (-1))))) = inactiveReply /\
  snd (Activate (worldAt 0) [] 100 fresh) = None /\
  snd (Status (worldAt 0) (fst (Activate (worldAt 0) [] 100 fresh)))
    = inactiveReply.
Proof. repeat split. Qed.

(** C8 (amended): from every prior state [Activate] returns [nil] and
    leaves a manager that keeps of the prior one only the configured
    TTL: the enclave is whatever [memguard] made of the key (none for an
    empty key), [expiresAt = now + ttl], the limit is the given one and
    [valueUsed = 0]. A [Status] made afterwards changes nothing; it
    reports [active = true], [used = "0"], the limit in decimal and the
    placeholder address when the key was sealed and the clock is not
    past [expiresAt], and the inactive shape when no enclave was made or
    the clock is past [expiresAt]. A [Sign] that fails in the session,
    unless with [ErrSessionExpired], leaves it as it is. *)
Theorem Activate_starts_fresh_session (w : World) (keyBytes : list byte)
    (limit : Z) (sm : SessionManager) :
  Activate w keyBytes limit sm =
    ({| enclave := memguard_NewEnclave w keyBytes;
        address := placeholderAddress;
        expiresAt := time_Now w + ttl sm;
        maxValueLimit := Some limit;
        valueUsed := 0;
        ttl := ttl sm |}, None) /\
  (forall w',
     fst (Status w' (fst (Activate w keyBytes limit sm)))
       = fst (Activate w keyBytes limit sm) /\
     (memguard_NewEnclave w keyBytes <> None ->
      time_Now w' <= time_Now w + ttl sm ->
      active (snd (Status w' (fst (Activate w keyBytes limit sm)))) = true /\
      used (snd (Status w' (fst (Activate w keyBytes limit sm)))) = "0" /\
      maxLimit (snd (Status w' (fst (Activate w keyBytes limit sm))))
        = Big.String limit /\
      signerAddress (snd (Status w' (fst (Activate w keyBytes limit sm))))
        = placeholderAddress) /\
     (memguard_NewEnclave w keyBytes = None \/
      time_Now w + ttl sm < time_Now w' ->
      snd (Status w' (fst (Activate w keyBytes limit sm))) = inactiveReply) /\
     (forall v sm'' err,
        Sign w' v (fst (Activate w keyBytes limit sm)) = Some (sm'', inl err) ->
        err <> ErrSessionExpired ->
        sm'' = fst (Activate w keyBytes limit sm))).
Proof.
  split; [reflexivity|].
  intros w'. set (sm' := fst (Activate w keyBytes limit sm)).
  split; [apply Status_keeps_state|]. split; [|split].
  - intros Hseal Hnow.
    destruct (memguard_NewEnclave w keyBytes) as [e|] eqn:He; [|congruence].
    assert (He' : enclave sm' = Some e) by exact He.
    assert (Hx : isExpired w' sm' = false) by now apply isExpired_not_after.
    rewrite (Status_active w' sm' e He' Hx). repeat split.
  - intros [Hnil|Hpast]; apply Status_inactive.
    + left. exact Hnil.
    + right. now apply isExpired_after.
  - intros v sm'' err Hs Hne. apply Sign_inv in Hs.
    inversion Hs; subst; congruence.
Qed.

Lemma Activate_starts_fresh_session_witness :
  active (snd (Status (worldAt (seconds 30))
                 (fst (Activate (worldAt (seconds 10)) demoKey 1000000
                         (commit 600000 (activated 5)))))) = true /\
  used (snd (Status (worldAt (seconds 30))
               (fst (Activate (worldAt (seconds 10)) demoKey 1000000
                       (commit 600000 (activated 5)))))) = "0" /\
  snd (Status (worldAt (seconds 71))
         (fst (Activate (worldAt (seconds 10)) demoKey 1000000
                 (commit 600000 (activated 5))))) = inactiveReply.
Proof.
  destruct (Activate_starts_fresh_session (worldAt (seconds 10)) demoKey
              1000000 (commit 600000 (activated 5))) as (_ & Hst).
  destruct (Hst (worldAt (seconds 30))) as (_ & Hlive & _).
  destruct (Hst (worldAt (seconds 71))) as (_ & _ & Hpast & _).
  destruct Hlive as (Ha & Hu & _).
  - discriminate.
  - cbn. lia.
  - split; [exact Ha|]. split; [exact Hu|].
    apply Hpast. right. cbn. lia.
Defined.

(** C9: [Destroy] is idempotent; from every state it leaves the
    no-active-session state (no enclave, no address, no limit, zero
    counter), after which [Sign] returns [ErrNoActiveSession], changing
    nothing, and [Status] reports the inactive shape. *)
Theorem Destroy_idempotent (sm : SessionManager) :
  Destroy (Destroy sm) = Destroy sm /\
  noActiveSession (Destroy sm) /\
  (forall w v, Sign w v (Destroy sm) = Some (Destroy sm, inl ErrNoActiveSession)) /\
  (forall w, Status w (Destroy sm) = (Destroy sm, inactiveReply)).
Proof.
  split; [reflexivity|]. split; [repeat split|]. split.
  - intros w v. now apply Sign_inactive.
  - reflexivity.
Qed.




(** ** Decimal text of the monetary fields *)

Lemma scanDigits_of_uint_acc (d : Decimal.uint) (acc : positive) :
  Big.scanDigits (NilEmpty.string_of_uint d) (Z.pos acc)
    = Some (Z.pos (Pos.of_uint_acc d acc)).
Proof.
  revert acc. induction d; intros acc;
    cbn [NilEmpty.string_of_uint Big.scanDigits Pos.of_uint_acc];
    [reflexivity|..];
    match goal with
    | |- context [Big.digit ?c] =>
        let r := eval vm_compute in (Big.digit c) in
        change (Big.digit c) with r; cbv iota
    end;
    match goal with
    | |- Big.scanDigits _ ?a = Some (Z.pos (Pos.of_uint_acc _ ?b)) =>
        replace a with (Z.pos b) by lia
    end; apply IHd.
Qed.

Lemma scanDigits_of_uint (d : Decimal.uint) :
  Big.scanDigits (NilEmpty.string_of_uint d) 0 = Some (Z.of_N (Pos.of_uint d)).
Proof.
  induction d; cbn [NilEmpty.string_of_uint Big.scanDigits Pos.of_uint];
    [reflexivity|..];
    match goal with
    | |- context [Big.digit ?c] =>
        let r := eval vm_compute in (Big.digit c) in
        change (Big.digit c) with r; cbv iota
    end;
    [exact IHd|..]; apply scanDigits_of_uint_acc.
Qed.

Lemma scanNat_string_of_uint (d : Decimal.uint) :
  Big.scanNat (NilZero.string_of_uint d) = Some (Z.of_uint d).
Proof.
  destruct d; [reflexivity|..]; exact (scanDigits_of_uint _).
Qed.

Lemma SetString_string_of_int (i : Decimal.int) :
  Big.SetString (NilZero.string_of_int i) = Some (Z.of_int i).
Proof.
  destruct i as [d|d].
  - destruct d; [reflexivity|..]; exact (scanDigits_of_uint _).
  - exact (f_equal (option_map Z.opp) (scanNat_string_of_uint d)).
Qed.

Lemma SetString_String (x : Z) : Big.SetString (Big.String x) = Some x.
Proof.
  unfold Big.String. rewrite SetString_string_of_int.
  now rewrite DecimalZ.of_to.
Qed.

(** ** Runs of calls *)

Lemma hasLimit_Sign_returns (w : World) (v : Z) (sm : SessionManager) :
  hasLimit sm -> exists sm' r, Sign w v sm = Some (sm', r).
Proof.
  unfold hasLimit, Sign. intros Hl.
  destruct (enclave sm) as [e|]; [|eauto].
  destruct (isExpired w sm); [eauto|].
  destruct (maxValueLimit sm) as [limit|]; [|exfalso; now apply Hl].
  cbv zeta. destruct (limit <? valueUsed sm + v); [eauto|].
  destruct (Enclave_Open w e); eauto.
Qed.

Lemma commit_same (sm : SessionManager) (t : Z) :
  t = valueUsed sm -> commit t sm = sm.
Proof. intros ->. now destruct sm. Qed.

Lemma signAll_inactive (calls : list (World * Z)) (sm : SessionManager) :
  enclave sm = None -> signAll calls sm = Some (sm, 0).
Proof.
  intros He. induction calls as [|[w v] rest IH]; [reflexivity|].
  cbn [signAll]. now rewrite (Sign_inactive w v sm He), IH.
Qed.

Lemma Sign_live_effect (w : World) (v : Z) (sm sm1 : SessionManager)
    (r : error + list byte) :
  Sign w v sm = Some (sm1, r) -> isExpired w sm = false ->
  sm1 = commit (valueUsed sm + signedValue v r) sm.
Proof.
  intros Hs Hx. apply Sign_inv in Hs.
  inversion Hs; subst; cbn [signedValue];
    try congruence; try (symmetry; apply commit_same; lia).
Qed.

Lemma Sign_budget_effect (w : World) (v limit : Z) (sm sm1 : SessionManager)
    (r : error + list byte) :
  Sign w v sm = Some (sm1, r) ->
  maxValueLimit sm = Some limit -> valueUsed sm <= limit ->
  (enclave sm1 = None /\ signedValue v r = 0) \/
  (maxValueLimit sm1 = Some limit /\
   valueUsed sm1 = valueUsed sm + signedValue v r /\
   valueUsed sm1 <= limit).
Proof.
  intros Hs Hl Hle. apply Sign_inv in Hs.
  inversion Hs; subst; cbn [signedValue].
  - now left.
  - now left.
  - right. repeat split; trivial; lia.
  - right. repeat split; trivial; lia.
  - right. cbn. assert (limit0 = limit) by congruence. subst.
    repeat split; trivial; lia.
Qed.

Lemma signAll_accounts (calls : list (World * Z)) :
  forall sm, hasLimit sm ->
  Forall (fun wv => isExpired (fst wv) sm = false) calls ->
  exists total, signAll calls sm = Some (commit (valueUsed sm + total) sm, total).
Proof.
  induction calls as [|[w v] rest IH]; intros sm Hl Hlive.
  - exists 0. cbn. f_equal. f_equal. symmetry. apply commit_same. lia.
  - inversion Hlive as [|wv l Hw Hrest]; subst. cbn [fst] in Hw.
    destruct (hasLimit_Sign_returns w v sm Hl) as (sm1 & r & Hs).
    cbn [signAll]. rewrite Hs.
    apply Sign_live_effect in Hs; [|exact Hw]. subst sm1.
    destruct (IH (commit (valueUsed sm + signedValue v r) sm) Hl Hrest)
      as (t & Ht).
    exists (signedValue v r + t). rewrite Ht. unfold commit. cbn.
    do 3 f_equal. lia.
Qed.

Lemma signAll_budget (calls : list (World * Z)) (limit : Z) :
  forall sm, maxValueLimit sm = Some limit -> valueUsed sm <= limit ->
  exists sm' total,
    signAll calls sm = Some (sm', total) /\ valueUsed sm + total <= limit.
Proof.
  induction calls as [|[w v] rest IH]; intros sm Hl Hle.
  - exists sm, 0. split; [reflexivity|lia].
  - assert (Hhas : hasLimit sm) by (unfold hasLimit; congruence).
    destruct (hasLimit_Sign_returns w v sm Hhas) as (sm1 & r & Hs).
    cbn [signAll]. rewrite Hs.
    destruct (Sign_budget_effect w v limit sm sm1 r Hs Hl Hle)
      as [[He H0]|(Hl1 & Hu & Hle1)].
    + rewrite (signAll_inactive rest sm1 He).
      exists sm1, (signedValue v r + 0). split; [reflexivity|lia].
    + destruct (IH sm1 Hl1 Hle1) as (sm' & t & Ht & Hb).
      exists sm', (signedValue v r + t). rewrite Ht.
      split; [reflexivity|lia].
Qed.

Lemma step_without_session (w : World) (c : Call) (sm : SessionManager) :
  isActivate c = false -> enclave sm = None ->
  step w c sm = Some sm \/ step w c sm = Some (destroyLocked sm).
Proof.
  intros Hc He. destruct c as [k l|v| |]; [discriminate|..]; cbn [step].
  - left. now rewrite (Sign_inactive w v sm He).
  - left. now rewrite Status_keeps_state.
  - now right.
Qed.

(** What a call other than [Activate] can do to a session: nothing, a new
    counter, or the teardown. *)
Lemma step_not_Activate (w : World) (c : Call) (sm sm' : SessionManager) :
  isActivate c = false -> step w c sm = Some sm' ->
  sm' = destroyLocked sm \/ exists t, sm' = commit t sm.
Proof.
  intros Hc Hs. destruct c as [k l|v| |]; [discriminate|..].
  - apply step_Sign in Hs as [r Hs]. apply Sign_inv in Hs.
    inversion Hs; subst; try (now left);
      try (right; exists (valueUsed sm'); symmetry; now apply commit_same).
    right. now eexists.
  - cbn in Hs. rewrite Status_keeps_state in Hs. injection Hs as <-.
    right. exists (valueUsed sm). symmetry. now apply commit_same.
  - injection Hs as <-. now left.
Qed.

Lemma step_datedBy (d : Duration) (hist : list (World * Call)) (w : World)
    (c : Call) (sm sm' : SessionManager) :
  datedBy d hist sm -> step w c sm = Some sm' ->
  datedBy d (hist ++ [(w, c)])%list sm'.
Proof.
  intros [Ht Hd] Hs.
  assert (Hold : enclave sm <> None ->
            exists w0 k l, In (w0, CallActivate k l) (hist ++ [(w, c)])%list /\
                           expiresAt sm = time_Now w0 + d).
  { intros He. destruct (Hd He) as (w0 & k & l & Hin & Hx).
    exists w0, k, l. split; [apply in_or_app; now left|exact Hx]. }
  destruct (isActivate c) eqn:Hc.
  - destruct c as [k l| | |]; try discriminate.
    injection Hs as <-. split; [exact Ht|]. intros _.
    exists w, k, l. split; [apply in_or_app; right; now left|].
    cbn. now rewrite Ht.
  - destruct (step_not_Activate w c sm sm' Hc Hs) as [->|[t ->]].
    + split; [exact Ht|]. cbn. congruence.
    + split; [exact Ht|exact Hold].
Qed.

Lemma run_datedBy (d : Duration) (calls : list (World * Call)) :
  forall hist sm sm',
    datedBy d hist sm -> run calls sm = Some sm' ->
    datedBy d (hist ++ calls)%list sm'.
Proof.
  induction calls as [|[w c] rest IH]; intros hist sm sm' Hd Hr.
  - injection Hr as <-. now rewrite app_nil_r.
  - cbn [run] in Hr. destruct (step w c sm) as [sm1|] eqn:Hs; [|discriminate].
    replace (hist ++ (w, c) :: rest)%list with ((hist ++ [(w, c)]) ++ rest)%list
      by now rewrite <- app_assoc.
    apply IH with sm1; [|exact Hr]. now apply step_datedBy with sm.
Qed.

(** ** What [SetString] accepts *)

Lemma scanDigits_nondigit (s : string) :
  forall acc c, In c (list_ascii_of_string s) -> Big.digit c = None ->
  Big.scanDigits s acc = None.
Proof.
  induction s as [|a rest IH]; intros acc c Hin Hc; [contradiction|].
  cbn [Big.scanDigits]. destruct Hin as [->|Hin].
  - now rewrite Hc.
  - destruct (Big.digit a); [now apply IH with c|reflexivity].
Qed.

Lemma scanNat_nondigit (s : string) (c : ascii) :
  In c (list_ascii_of_string s) -> Big.digit c = None -> Big.scanNat s = None.
Proof.
  intros Hin Hc. destruct s; [contradiction|].
  now apply scanDigits_nondigit with c.
Qed.

Lemma scanDigits_none (s : string) :
  forall acc, Big.scanDigits s acc = None ->
  exists c, In c (list_ascii_of_string s) /\ Big.digit c = None.
Proof.
  induction s as [|a rest IH]; intros acc Hs; [discriminate|].
  cbn [Big.scanDigits] in Hs. destruct (Big.digit a) as [d|] eqn:Ha.
  - destruct (IH _ Hs) as (c & Hin & Hc). exists c. split; [now right|exact Hc].
  - exists a. split; [now left|exact Ha].
Qed.

Lemma scanNat_none (s : string) :
  Big.scanNat s = None ->
  s = "" \/ exists c, In c (list_ascii_of_string s) /\ Big.digit c = None.
Proof.
  destruct s as [|a rest]; [now left|]. intros Hs. right.
  now apply scanDigits_none with 0.
Qed.

(** [SetString] looks at the first byte for a sign and scans the rest. *)
Lemma SetString_first (a : ascii) (rest : string) :
  (a = "-"%char /\ Big.SetString (String.String a rest)
                    = option_map Z.opp (Big.scanNat rest)) \/
  (a = "+"%char /\ Big.SetString (String.String a rest) = Big.scanNat rest) \/
  (a <> "-"%char /\ a <> "+"%char /\
   Big.SetString (String.String a rest)
     = Big.scanDigits (String.String a rest) 0).
Proof.
  destruct a as [[|] [|] [|] [|] [|] [|] [|] [|]];
    first [ left; split; reflexivity
          | right; left; split; reflexivity
          | right; right; split; [discriminate|split; [discriminate|reflexivity]] ].
Qed.

Lemma SetString_malformed (s : string) :
  Big.SetString s = None <-> malformedAmount s.
Proof.
  unfold malformedAmount. split.
  - destruct s as [|a rest]; [now left|]. intros Hnone.
    destruct (SetString_first a rest) as [[-> Heq]|[[-> Heq]|(Hm & Hp & Heq)]];
      rewrite Heq in Hnone.
    + destruct (Big.scanNat rest) eqn:Hs; [discriminate|].
      destruct (scanNat_none rest Hs) as [->|Hc]; [now right; right; left|].
      now right; right; right; left.
    + destruct (scanNat_none rest Hnone) as [->|Hc]; [now right; left|].
      now right; right; right; left.
    + destruct (scanDigits_none _ _ Hnone) as (c & [<-|Hin] & Hc).
      * right; right; right; right. now exists a, rest.
      * right; right; right; left. now exists c.
  - intros [->|[->|[->|[(c & Hin & Hc)|(c & rest & -> & Hc & Hm & Hp)]]]];
      try reflexivity.
    + destruct s as [|a rest]; [contradiction|]. cbn [afterFirst] in Hin.
      destruct (SetString_first a rest) as [[-> Heq]|[[-> Heq]|(Hm & Hp & Heq)]];
        rewrite Heq.
      * now rewrite (scanNat_nondigit rest c Hin Hc).
      * now apply scanNat_nondigit with c.
      * apply scanDigits_nondigit with c; [now right|exact Hc].
    + destruct (SetString_first c rest) as [[-> Heq]|[[-> Heq]|(_ & _ & Heq)]];
        try congruence.
      rewrite Heq. cbn [Big.scanDigits]. now rewrite Hc.
Qed.

Lemma run_reachable (calls : list (World * Call)) :
  forall sm, Reachable anyCall sm ->
  exists sm', run calls sm = Some sm' /\ Reachable anyCall sm'.
Proof.
  induction calls as [|[w c] rest IH]; intros sm Hr; [now exists sm|].
  assert (Hstep : exists sm1, step w c sm = Some sm1).
  { destruct c as [k l|v| |]; cbn [step].
    - now eexists.
    - destruct (Sign_returns anyCall w v sm Hr) as (sm1 & r & Hs).
      exists sm1. now rewrite Hs.
    - now eexists.
    - now eexists. }
  destruct Hstep as [sm1 Hs]. cbn [run]. rewrite Hs.
  apply IH. now apply Reachable_step with sm w c.
Qed.

Lemma SignOrder_reachable (w w' : World) (req : SignOrderRequest)
    (sm : SessionManager) :
  Reachable anyCall sm ->
  exists sm' res, SignOrder w w' req sm = Some (sm', res) /\
                  Reachable anyCall sm'.
Proof.
  intros Hr. unfold SignOrder.
  destruct (Order req) as [order|]; [|eauto].
  destruct (Big.SetString (MakerAmount order)) as [v|]; [|eauto].
  destruct (Sign_returns anyCall w v sm Hr) as (sm1 & r & Hs). rewrite Hs.
  assert (Hr1 : Reachable anyCall sm1).
  { apply Reachable_step with sm w (CallSign v); [exact Hr|exact I|].
    cbn [step]. now rewrite Hs. }
  destruct r as [err|sig]; [eauto|].
  pose proof (Status_keeps_state w' sm1) as Hk.
  destruct (Status w' sm1) as [sm2 reply]. cbn in Hk. subst sm2. eauto.
Qed.

(** ** Further properties of the manager *)

(** X1: a manager on which [Activate] was never called is still the one
    [NewSessionManager] built, whatever [Sign], [Status] and [Destroy]
    calls were made: [Sign] answers [ErrNoActiveSession] and [Status]
    the inactive shape. *)
Theorem no_session_before_Activate (d : Duration)
    (calls : list (World * Call)) :
  Forall (fun wc => isActivate (snd wc) = false) calls ->
  run calls (NewSessionManager d) = Some (NewSessionManager d) /\
  (forall w v, Sign w v (NewSessionManager d)
               = Some (NewSessionManager d, inl ErrNoActiveSession)) /\
  (forall w, Status w (NewSessionManager d)
             = (NewSessionManager d, inactiveReply)).
Proof.
  intros Hall. split; [|split; reflexivity].
  induction calls as [|[w c] rest IH]; [reflexivity|].
  inversion Hall as [|wc l Hc Hrest]; subst. cbn [snd] in Hc.
  cbn [run].
  destruct (step_without_session w c (NewSessionManager d) Hc eq_refl)
    as [Hs|Hs]; rewrite Hs; now apply IH.
Qed.

Lemma no_session_before_Activate_witness :
  run [(worldAt (seconds 1), CallSign 100); (worldAt (seconds 2), CallStatus);
       (worldAt (seconds 3), CallDestroy); (worldAt (seconds 4), CallSign 1)]
      fresh = Some fresh.
Proof.
  apply (no_session_before_Activate (seconds 60)).
  repeat constructor.
Defined.

(** X2: a call other than [Activate] never changes the TTL or the expiry
    of the manager, and it either tears the session down or leaves its
    enclave, address and limit as they were: signing does not extend or
    alter a session. *)
Theorem only_Activate_sets_session (w : World) (c : Call)
    (sm sm' : SessionManager) :
  isActivate c = false -> step w c sm = Some sm' ->
  ttl sm' = ttl sm /\ expiresAt sm' = expiresAt sm /\
  (sm' = destroyLocked sm \/
   (enclave sm' = enclave sm /\ address sm' = address sm /\
    maxValueLimit sm' = maxValueLimit sm)).
Proof.
  intros Hc Hs.
  destruct (step_not_Activate w c sm sm' Hc Hs) as [->|[t ->]].
  - split; [reflexivity|]. split; [reflexivity|]. now left.
  - split; [reflexivity|]. split; [reflexivity|]. now right.
Qed.

Lemma only_Activate_sets_session_witness :
  expiresAt (commit 40 (activated 100)) = expiresAt (activated 100) /\
  enclave (commit 40 (activated 100)) = enclave (activated 100).
Proof.
  destruct (only_Activate_sets_session (worldAt (seconds 59)) (CallSign 40)
              (activated 100) (commit 40 (activated 100)) eq_refl eq_refl)
    as (_ & Hx & [Hd|(He & _)]).
  - discriminate Hd.
  - split; [exact Hx|exact He].
Defined.

(** X3: over any series of [Sign] calls made before the session expires,
    the manager ends as it began but for [valueUsed], which has grown by
    exactly the sum of the order values of the calls that returned a
    signature. *)
Theorem Sign_series_accounts (calls : list (World * Z))
    (sm : SessionManager) :
  Reachable anyCall sm ->
  Forall (fun wv => isExpired (fst wv) sm = false) calls ->
  exists total,
    signAll calls sm = Some (commit (valueUsed sm + total) sm, total).
Proof.
  intros Hr Hlive. apply signAll_accounts; [|exact Hlive].
  now apply Reachable_hasLimit with anyCall.
Qed.

Lemma Sign_series_accounts_witness :
  exists total,
    signAll [(worldAt (seconds 1), 600000); (worldAt (seconds 2), 500000);
             (brokenWorldAt (seconds 3), 100000); (worldAt (seconds 4), 400000)]
            (activated 1000000)
      = Some (commit (valueUsed (activated 1000000) + total)
                     (activated 1000000), total).
Proof.
  apply Sign_series_accounts.
  - apply activated_reachable. exact I.
  - repeat constructor.
Defined.

(** X4: from a state with [valueUsed <= maxValueLimit], any series of
    [Sign] calls, at any times and with any order values, returns and
    signs in total no more than what was left of the limit. *)
Theorem Sign_series_within_budget (calls : list (World * Z))
    (sm : SessionManager) (limit : Z) :
  maxValueLimit sm = Some limit -> valueUsed sm <= limit ->
  exists sm' total,
    signAll calls sm = Some (sm', total) /\ valueUsed sm + total <= limit.
Proof. intros Hl Hle. now apply signAll_budget. Qed.

Lemma Sign_series_within_budget_witness :
  exists sm' total,
    signAll [(worldAt (seconds 1), 600000); (worldAt (seconds 2), 500000);
             (worldAt (seconds 61), 1); (worldAt (seconds 62), 1)]
            (activated 1000000) = Some (sm', total) /\
    valueUsed (activated 1000000) + total <= 1000000.
Proof.
  apply Sign_series_within_budget.
  - reflexivity.
  - cbn. lia.
Defined.

(** X5: in every state a manager built by [NewSessionManager] reaches
    through calls that pass integers (no [nil] limit or order value), an
    enclave is never stored without a limit. So the comparison of [Sign]
    never meets a [nil] limit there: every [Sign] of an integer returns,
    and so does every [SignOrder], which only ever passes [Sign] a parsed
    integer. *)
Theorem stored_enclave_has_limit (d : Duration) (calls : list (World * Call)) :
  exists sm,
    run calls (NewSessionManager d) = Some sm /\
    (enclave sm <> None -> maxValueLimit sm <> None) /\
    (forall w v, exists sm' r, Sign w v sm = Some (sm', r)) /\
    (forall w w' req, exists sm' res, SignOrder w w' req sm = Some (sm', res)).
Proof.
  destruct (run_reachable calls (NewSessionManager d) (Reachable_new anyCall d))
    as (sm & Hrun & Hr).
  exists sm. split; [exact Hrun|]. split; [|split].
  - exact (Reachable_hasLimit anyCall sm Hr).
  - intros w v. now apply Sign_returns with anyCall.
  - intros w w' req.
    destruct (SignOrder_reachable w w' req sm Hr) as (sm' & res & Hs & _).
    now exists sm', res.
Qed.

(** X6: whatever calls were made, the manager keeps the TTL it was built
    with, and a session it holds expires at the clock reading of one of
    the [Activate] calls plus that TTL. *)
Theorem expiry_dates_from_Activate (d : Duration)
    (calls : list (World * Call)) (sm : SessionManager) :
  run calls (NewSessionManager d) = Some sm ->
  ttl sm = d /\
  (enclave sm <> None ->
   exists w k l, In (w, CallActivate k l) calls /\
                 expiresAt sm = time_Now w + d).
Proof.
  intros Hrun.
  apply (run_datedBy d calls [] (NewSessionManager d) sm); [|exact Hrun].
  split; [reflexivity|]. cbn. congruence.
Qed.

Lemma expiry_dates_from_Activate_witness :
  ttl (commit 40 (activated 100)) = seconds 60 /\
  (enclave (commit 40 (activated 100)) <> None ->
   exists w k l,
     In (w, CallActivate k l)
        [(worldAt 0, CallActivate demoKey 100); (worldAt (seconds 5), CallSign 40)] /\
     expiresAt (commit 40 (activated 100)) = time_Now w + seconds 60).
Proof.
  apply (expiry_dates_from_Activate (seconds 60)
           [(worldAt 0, CallActivate demoKey 100);
            (worldAt (seconds 5), CallSign 40)]).
  reflexivity.
Defined.

Lemma expired_run (w : World) (sm : SessionManager) (e : Enclave)
    (calls : list (World * Call)) :
  enclave sm = Some e -> isExpired w sm = true ->
  Forall (fun wc => time_Now w <= time_Now (fst wc) /\
                    isActivate (snd wc) = false) calls ->
  forall s, s = sm \/ s = destroyLocked sm ->
  exists s', run calls s = Some s' /\ (s' = sm \/ s' = destroyLocked sm).
Proof.
  intros He Hx Hall. apply isExpired_after in Hx.
  induction Hall as [|[w' c] rest [Hlate Hc] _ IH]; intros s Hs;
    [now exists s|].
  cbn [fst snd] in Hlate, Hc. cbn [run].
  assert (Hstep : exists s1, step w' c s = Some s1 /\
                             (s1 = sm \/ s1 = destroyLocked sm)).
  { destruct Hs as [->| ->].
    - destruct c as [k l|v| |]; [discriminate|..]; cbn [step].
      + rewrite (Sign_expired w' v sm e He).
        * cbn [option_map fst]. eauto.
        * apply isExpired_after. lia.
      + rewrite Status_keeps_state. eauto.
      + eauto.
    - destruct (step_without_session w' c (destroyLocked sm) Hc eq_refl)
        as [Hd|Hd]; rewrite Hd; eauto. }
  destruct Hstep as (s1 & Hs1 & Hin). rewrite Hs1. now apply IH.
Qed.

(** X7: a session found expired does not come back. After any calls
    other than [Activate] made at later clock readings, the manager is
    the expired one or its torn-down state; every later [Status] reports
    the inactive shape and every later [Sign] fails, with
    [ErrSessionExpired] or [ErrNoActiveSession], leaving the torn-down
    state. *)
Theorem expired_session_never_returns (w : World) (sm : SessionManager)
    (e : Enclave) (calls : list (World * Call)) :
  enclave sm = Some e -> isExpired w sm = true ->
  Forall (fun wc => time_Now w <= time_Now (fst wc) /\
                    isActivate (snd wc) = false) calls ->
  exists sm',
    run calls sm = Some sm' /\ (sm' = sm \/ sm' = destroyLocked sm) /\
    forall w', time_Now w <= time_Now w' ->
      snd (Status w' sm') = inactiveReply /\
      forall v, exists err,
        Sign w' v sm' = Some (destroyLocked sm, inl err) /\
        (err = ErrSessionExpired \/ err = ErrNoActiveSession).
Proof.
  intros He Hx Hall.
  destruct (expired_run w sm e calls He Hx Hall sm (or_introl eq_refl))
    as (sm' & Hrun & Hin).
  exists sm'. split; [exact Hrun|]. split; [exact Hin|].
  intros w' Hlate.
  assert (Hx' : isExpired w' sm = true).
  { apply isExpired_after. apply isExpired_after in Hx. lia. }
  destruct Hin as [->| ->].
  - split; [apply Status_inactive; now right|].
    intros v. exists ErrSessionExpired. split; [|now left].
    now apply Sign_expired with e.
  - split; [reflexivity|].
    intros v. exists ErrNoActiveSession. split; [reflexivity|now right].
Qed.

Lemma expired_session_never_returns_witness :
  exists sm',
    run [(worldAt (seconds 62), CallStatus); (worldAt (seconds 63), CallSign 1);
         (worldAt (seconds 64), CallSign 1)] (activated 100) = Some sm' /\
    (sm' = activated 100 \/ sm' = destroyLocked (activated 100)) /\
    forall w', time_Now (worldAt (seconds 61)) <= time_Now w' ->
      snd (Status w' sm') = inactiveReply /\
      forall v, exists err,
        Sign w' v sm' = Some (destroyLocked (activated 100), inl err) /\
        (err = ErrSessionExpired \/ err = ErrNoActiveSession).
Proof.
  apply (expired_session_never_returns (worldAt (seconds 61)) (activated 100)
           (Sealed demoKey)).
  - reflexivity.
  - reflexivity.
  - repeat constructor; cbn; lia.
Defined.

(** X8: when [memguard.NewEnclave] hands back [nil] for the key,
    [Activate] still returns [nil], but the manager has no session: the
    previous one is gone, [Sign] answers [ErrNoActiveSession] and
    [Status] the inactive shape. *)
Theorem Activate_without_enclave (w : World) (keyBytes : list byte)
    (limit : Z) (sm : SessionManager) :
  memguard_NewEnclave w keyBytes = None ->
  snd (Activate w keyBytes limit sm) = None /\
  enclave (fst (Activate w keyBytes limit sm)) = None /\
  (forall w' v,
     Sign w' v (fst (Activate w keyBytes limit sm))
       = Some (fst (Activate w keyBytes limit sm), inl ErrNoActiveSession)) /\
  (forall w',
     snd (Status w' (fst (Activate w keyBytes limit sm))) = inactiveReply).
Proof.
  intros Hnil. split; [reflexivity|]. split; [exact Hnil|]. split.
  - intros w' v. now apply Sign_inactive.
  - intros w'. apply Status_inactive. now left.
Qed.

Lemma Activate_without_enclave_witness :
  Sign (worldAt (seconds 1)) 1
       (fst (Activate (worldAt (seconds 1)) [] 100 (commit 40 (activated 100))))
    = Some (fst (Activate (worldAt (seconds 1)) [] 100
                   (commit 40 (activated 100))),
            inl ErrNoActiveSession).
Proof.
  destruct (Activate_without_enclave (worldAt (seconds 1)) [] 100
              (commit 40 (activated 100)) eq_refl) as (_ & _ & Hsign & _).
  apply Hsign.
Defined.

(** ** Further properties of the handler *)

(** X9: [SignOrder] answers [InvalidArgument] and leaves the manager
    untouched, whatever state it is in, when the request has no order or
    when its [maker_amount] is not an optional sign followed by decimal
    digits only: empty, a lone sign, or holding any other byte (a
    decimal point, an exponent, a space, a digit separator). *)
Theorem SignOrder_rejects_invalid_input (w w' : World)
    (req : SignOrderRequest) (sm : SessionManager) :
  (Order req = None ->
   SignOrder w w' req sm
     = Some (sm, inl {| code := InvalidArgument;
                        message := "order is required" |})) /\
  (forall order,
     Order req = Some order -> malformedAmount (MakerAmount order) ->
     SignOrder w w' req sm
       = Some (sm, inl {| code := InvalidArgument;
                          message := "invalid maker_amount: "
                                       ++ MakerAmount order |})) /\
  (forall order,
     Order req = Some order -> ~ malformedAmount (MakerAmount order) ->
     exists v, Big.SetString (MakerAmount order) = Some v /\
               SignOrder w w' req sm
                 = SignOrder w w' (orderOf (Big.String v)) sm).
Proof.
  split; [|split].
  - intros Ho. unfold SignOrder. now rewrite Ho.
  - intros order Ho Hbad. apply SetString_malformed in Hbad.
    unfold SignOrder. now rewrite Ho, Hbad.
  - intros order Ho Hgood.
    destruct (Big.SetString (MakerAmount order)) as [v|] eqn:Hp.
    + exists v. split; [reflexivity|].
      unfold SignOrder, orderOf. cbn [Order MakerAmount].
      now rewrite Ho, Hp, SetString_String.
    + exfalso. apply Hgood. now apply SetString_malformed.
Qed.

Lemma SignOrder_rejects_invalid_input_witness :
  SignOrder (worldAt (seconds 61)) (worldAt (seconds 61)) (orderOf "1.5")
            (activated 100)
    = Some (activated 100,
            inl {| code := InvalidArgument;
                   message := "invalid maker_amount: 1.5" |}).
Proof.
  destruct (SignOrder_rejects_invalid_input (worldAt (seconds 61))
              (worldAt (seconds 61)) (orderOf "1.5") (activated 100))
    as (_ & Hbad & _).
  apply (Hbad {| MakerAmount := "1.5" |} eq_refl).
  right; right; right; left. exists "."%char. split.
  - cbn. now left.
  - reflexivity.
Defined.

(** X10: when [Sign] signs, [SignOrder] returns the 65 placeholder bytes
    as the signature and leaves the manager [Sign] left. The signer
    address is read by a second call, [Status]: it is the session's
    address if the session has not expired by then, and the empty string
    if it has. *)
Theorem SignOrder_success_response (w w' : World) (order : OrderMsg)
    (v limit : Z) (sm : SessionManager) (e : Enclave) (buf : LockedBuffer) :
  Big.SetString (MakerAmount order) = Some v ->
  enclave sm = Some e -> isExpired w sm = false ->
  maxValueLimit sm = Some limit -> valueUsed sm + v <= limit ->
  Enclave_Open w e = inr buf ->
  SignOrder w w' {| Order := Some order |} sm
    = Some (commit (valueUsed sm + v) sm,
            inr {| Signature := string_of_list_byte placeholderSignature;
                   SignerAddress :=
                     if isExpired w' sm then "" else address sm |}) /\
  String.length (string_of_list_byte placeholderSignature) = 65%nat.
Proof.
  intros Hp He Hx Hl Hle Ho. split; [|reflexivity].
  unfold SignOrder. cbn [Order]. rewrite Hp.
  rewrite (Sign_signed w v sm e limit buf He Hx Hl Hle Ho).
  unfold Status. cbn [enclave commit]. rewrite He.
  change (isExpired w' (commit (valueUsed sm + v) sm)) with (isExpired w' sm).
  now destruct (isExpired w' sm).
Qed.

Lemma SignOrder_success_response_witness :
  SignOrder (worldAt (seconds 60)) (worldAt (seconds 61)) (orderOf "+25")
            (activated 100)
    = Some (commit 25 (activated 100),
            inr {| Signature := string_of_list_byte placeholderSignature;
                   SignerAddress := "" |}).
Proof.
  destruct (SignOrder_success_response (worldAt (seconds 60))
              (worldAt (seconds 61)) {| MakerAmount := "+25" |} 25 100
              (activated 100) (Sealed demoKey) demoKey
              eq_refl eq_refl eq_refl eq_refl) as (H & _).
  - cbn. lia.
  - reflexivity.
  - exact H.
Defined.

(** X11: [GetSessionStatus] never changes the manager, and on a manager
    used through its methods its two monetary fields are always decimal
    integers [SetString] reads back: the limit and [valueUsed] of the
    session when it reports [Active], and ["0"] with an empty address
    when it does not, which is exactly when there is no enclave or the
    clock is past [expiresAt]. *)
Theorem GetSessionStatus_reports_decimal (w : World) (sm : SessionManager) :
  Reachable anyCall sm ->
  fst (GetSessionStatus w sm) = sm /\
  (Active (snd (GetSessionStatus w sm)) = true ->
   exists e limit,
     enclave sm = Some e /\ maxValueLimit sm = Some limit /\
     time_Now w <= expiresAt sm /\
     Big.SetString (MaxValueLimit (snd (GetSessionStatus w sm))) = Some limit /\
     Big.SetString (ValueUsed (snd (GetSessionStatus w sm)))
       = Some (valueUsed sm) /\
     SessionAddress (snd (GetSessionStatus w sm)) = address sm) /\
  (Active (snd (GetSessionStatus w sm)) = false ->
   (enclave sm = None \/ expiresAt sm < time_Now w) /\
   snd (GetSessionStatus w sm)
     = {| Active := false; TtlSeconds := 0; MaxValueLimit := "0";
          ValueUsed := "0"; SessionAddress := "" |}).
Proof.
  intros Hr. apply Reachable_hasLimit in Hr. unfold hasLimit in Hr.
  unfold GetSessionStatus, Status.
  destruct (enclave sm) as [e|] eqn:He.
  - destruct (isExpired w sm) eqn:Hx; cbn.
    + split; [reflexivity|]. split; [discriminate|]. intros _.
      split; [|reflexivity]. right. now apply isExpired_after.
    + split; [reflexivity|]. split; [|discriminate]. intros _.
      destruct (maxValueLimit sm) as [limit|] eqn:Hl;
        [|exfalso; now apply Hr].
      exists e, limit. cbn [Big.StringPtr].
      rewrite !SetString_String.
      repeat split; trivial. now apply isExpired_not_after.
  - cbn. split; [reflexivity|]. split; [discriminate|]. intros _.
    split; [now left|reflexivity].
Qed.

Lemma GetSessionStatus_reports_decimal_witness :
  Big.SetString (ValueUsed (snd (GetSessionStatus (worldAt (seconds 5))
                                   (commit 600000 (activated 1000000)))))
    = Some 600000.
Proof.
  assert (Hr : Reachable anyCall (commit 600000 (activated 1000000))).
  { apply Reachable_step with (activated 1000000) (worldAt (seconds 1))
                              (CallSign 600000).
    - now apply activated_reachable.
    - exact I.
    - reflexivity. }
  destruct (GetSessionStatus_reports_decimal (worldAt (seconds 5))
              (commit 600000 (activated 1000000)) Hr) as (_ & Hact & _).
  destruct (Hact eq_refl) as (e & limit & _ & _ & _ & _ & Hu & _).
  exact Hu.
Defined.

(** X12: for every integer [v], a [SignOrder] whose [maker_amount] is the
    decimal text of [v] does to the manager exactly what [Sign v] does:
    the handler adds no state change of its own, and it returns a
    response only when [Sign] returned a signature. *)
Theorem SignOrder_follows_Sign (w w' : World) (v : Z) (sm : SessionManager) :
  option_map fst (SignOrder w w' (orderOf (Big.String v)) sm)
    = option_map fst (Sign w v sm) /\
  (forall sm' resp,
     SignOrder w w' (orderOf (Big.String v)) sm = Some (sm', inr resp) ->
     Sign w v sm = Some (sm', inr placeholderSignature)) /\
  (forall sm' err,
     Sign w v sm = Some (sm', inl err) ->
     SignOrder w w' (orderOf (Big.String v)) sm
       = Some (sm', inl (statusOfError err))).
Proof.
  unfold SignOrder, orderOf. cbn [Order MakerAmount].
  rewrite SetString_String.
  destruct (Sign w v sm) as [[sm1 [err|sig]]|] eqn:Hs.
  - split; [reflexivity|]. split; [discriminate|]. now intros sm' err' [= <- <-].
  - pose proof (Status_keeps_state w' sm1) as Hk.
    destruct (Status w' sm1) as [sm2 reply]. cbn in Hk. subst sm2.
    split; [reflexivity|]. split; [|discriminate].
    intros sm' resp [= <- _]. apply Sign_inv in Hs. now inversion Hs; subst.
  - split; [reflexivity|]. split; discriminate.
Qed.

Lemma SignOrder_signed (w w' : World) (v limit : Z) (sm : SessionManager)
    (e : Enclave) (buf : LockedBuffer) :
  enclave sm = Some e -> isExpired w sm = false ->
  maxValueLimit sm = Some limit -> valueUsed sm + v <= limit ->
  Enclave_Open w e = inr buf ->
  SignOrder w w' (orderOf (Big.String v)) sm
    = Some (commit (valueUsed sm + v) sm,
            inr {| Signature := string_of_list_byte placeholderSignature;
                   SignerAddress :=
                     if isExpired w' sm then "" else address sm |}).
Proof.
  intros He Hx Hl Hle Ho.
  unfold SignOrder, orderOf. cbn [Order MakerAmount].
  rewrite SetString_String.
  rewrite (Sign_signed w v sm e limit buf He Hx Hl Hle Ho).
  unfold Status. cbn [enclave commit]. rewrite He.
  change (isExpired w' (commit (valueUsed sm + v) sm)) with (isExpired w' sm).
  now destruct (isExpired w' sm).
Qed.

(** X13: the handler end to end. On a session just activated with the
    limit [L], while it lasts: an order of [a <= L] is signed and
    answered with the session's address; a further order of [b] with
    [a + b > L] is answered [ResourceExhausted] and changes nothing; and
    [GetSessionStatus] then reports [a] as the value used. *)
Theorem facade_spend_scenario (w0 w1 w1' w2 w2' w3 : World)
    (keyBytes : list byte) (L a b : Z) (sm : SessionManager)
    (e : Enclave) (buf : LockedBuffer) :
  memguard_NewEnclave w0 keyBytes = Some e ->
  Enclave_Open w1 e = inr buf ->
  time_Now w1 <= time_Now w0 + ttl sm ->
  time_Now w1' <= time_Now w0 + ttl sm ->
  time_Now w2 <= time_Now w0 + ttl sm ->
  time_Now w3 <= time_Now w0 + ttl sm ->
  a <= L -> L < a + b ->
  SignOrder w1 w1' (orderOf (Big.String a)) (fst (Activate w0 keyBytes L sm))
    = Some (commit a (fst (Activate w0 keyBytes L sm)),
            inr {| Signature := string_of_list_byte placeholderSignature;
                   SignerAddress := placeholderAddress |}) /\
  SignOrder w2 w2' (orderOf (Big.String b))
            (commit a (fst (Activate w0 keyBytes L sm)))
    = Some (commit a (fst (Activate w0 keyBytes L sm)),
            inl {| code := ResourceExhausted;
                   message := "cumulative value limit exceeded" |}) /\
  ValueUsed (snd (GetSessionStatus w3
                    (commit a (fst (Activate w0 keyBytes L sm)))))
    = Big.String a /\
  Active (snd (GetSessionStatus w3
                 (commit a (fst (Activate w0 keyBytes L sm))))) = true.
Proof.
  intros Hseal Hopen H1 H1' H2 H3 Ha Hb.
  set (sm0 := fst (Activate w0 keyBytes L sm)).
  assert (He : enclave sm0 = Some e) by exact Hseal.
  assert (Hlive : forall w, time_Now w <= time_Now w0 + ttl sm ->
                            isExpired w sm0 = false).
  { intros w Hw. now apply isExpired_not_after. }
  split; [|split; [|split]].
  - rewrite (SignOrder_signed w1 w1' a L sm0 e buf He (Hlive w1 H1) eq_refl
               Ha Hopen).
    now rewrite (Hlive w1' H1').
  - unfold SignOrder, orderOf. cbn [Order MakerAmount].
    rewrite SetString_String.
    rewrite (Sign_over_limit w2 b (commit a sm0) e L); trivial.
    now apply Hlive.
  - unfold GetSessionStatus, Status. cbn [enclave commit]. rewrite He.
    change (isExpired w3 (commit a sm0)) with (isExpired w3 sm0).
    now rewrite (Hlive w3 H3).
  - unfold GetSessionStatus, Status. cbn [enclave commit]. rewrite He.
    change (isExpired w3 (commit a sm0)) with (isExpired w3 sm0).
    now rewrite (Hlive w3 H3).
Qed.

Lemma facade_spend_scenario_witness :
  SignOrder (worldAt (seconds 2)) (worldAt (seconds 2)) (orderOf "500000")
            (commit 600000 (activated 1000000))
    = Some (commit 600000 (activated 1000000),
            inl {| code := ResourceExhausted;
                   message := "cumulative value limit exceeded" |}) /\
  ValueUsed (snd (GetSessionStatus (worldAt (seconds 3))
                    (commit 600000 (activated 1000000)))) = "600000".
Proof.
  destruct (facade_spend_scenario (worldAt 0) (worldAt (seconds 1))
              (worldAt (seconds 1)) (worldAt (seconds 2)) (worldAt (seconds 2))
              (worldAt (seconds 3)) demoKey 1000000 600000 500000 fresh
              (Sealed demoKey) demoKey eq_refl eq_refl)
    as (_ & Hover & Hused & _);
    try (cbn; lia).
  split; [exact Hover|exact Hused].
Defined.
